(** * Swiss-system tournament: the store, its operations, standings and pairings

    A shallow embedding of [tournament/tournament.py].  Every function of the
    module opens a connection, runs one SQL statement inside one transaction
    and returns; the PostgreSQL store is modelled as a value of type [DB] and
    each Python function as a computation of the [Store] monad (state passing,
    with [None] for an error raised while the statement is prepared or run,
    which rolls the transaction back and propagates to the caller). *)

From Stdlib Require Import ZArith String List Bool Lia.
From Stdlib Require Import Permutation Sorted Orders Mergesort RelationClasses.
Import ListNotations.

Open Scope Z_scope.

(* ================================================================== *)
(** ** The store *)

(** Modelled from the spec: the schema file is not part of the sources.  The
    [player] table has a store-assigned unique [id] and a free-text [name]. *)
Record Player : Type := mkPlayer { player_id : Z; player_name : string }.

(** Modelled from the spec: the [match] table has the columns [winner] and
    [loser], both foreign keys into [player.id]. *)
Record Match : Type := mkMatch { winner : Z; loser : Z }.

(** Modelled from the spec: the store holds the two tables, kept here in
    insertion order, and the sequence that assigns [player.id], kept as its
    next value.  Ids are unbounded integers here: the width of the column
    belongs to the schema, which is not part of the sources. *)
Record DB : Type := mkDB {
  player_tbl : list Player;
  match_tbl : list Match;
  player_id_seq : Z
}.

(** A freshly provisioned store: no rows, the sequence at its first value. *)
Definition empty_db : DB :=
  {| player_tbl := []; match_tbl := []; player_id_seq := 1 |}.

(** A row of the result of [playerStandings]: (id, name, wins, matches). *)
Record Standing : Type := mkStanding {
  st_id : Z; st_name : string; st_wins : Z; st_matches : Z
}.

(** A row of the result of [swissPairings]: (id1, name1, id2, name2). *)
Record Pairing : Type := mkPairing {
  id1 : Z; name1 : string; id2 : Z; name2 : string
}.

(* ================================================================== *)
(** ** The [Store] monad *)

Definition Store (A : Type) : Type := DB -> option (A * DB).

Definition ret {A} (a : A) : Store A := fun db => Some (a, db).

Definition bind {A B} (m : Store A) (k : A -> Store B) : Store B :=
  fun db => match m db with
            | Some (a, db') => k a db'
            | None => None
            end.

(** A statement the store rejects: the enclosing transaction is rolled back,
    so no new state is returned. *)
Definition storage_error {A} : Store A := fun _ => None.

(** An argument the driver cannot send to the store: the call raises before
    the statement runs, and the store stays as it is. *)
Definition value_error {A} : Store A := fun _ => None.

Definition get_db : Store DB := fun db => Some (db, db).
Definition put_db (db' : DB) : Store unit := fun _ => Some (tt, db').

Notation "x <- m ;; k" := (bind m (fun x => k))
  (at level 61, m at next level, right associativity).

(* ================================================================== *)
(** ** The SQL statements *)

(** [SELECT COUNT( * ) FROM tbl WHERE cond]. *)
Definition count_where {A} (cond : A -> bool) (tbl : list A) : Z :=
  Z.of_nat (length (filter cond tbl)).

(** [TRUNCATE match RESTART IDENTITY]: the [match] table owns no sequence. *)
Definition truncate_match (db : DB) : DB :=
  {| player_tbl := player_tbl db;
     match_tbl := [];
     player_id_seq := player_id_seq db |}.

(** [TRUNCATE player RESTART IDENTITY CASCADE]: [match] references [player],
    so it is truncated with it. *)
Definition truncate_player_cascade (db : DB) : DB :=
  {| player_tbl := []; match_tbl := []; player_id_seq := 1 |}.

(** [INSERT INTO player (name) VALUES (%s)]: the id is drawn from the
    sequence. *)
Definition insert_player (name : string) (db : DB) : DB :=
  {| player_tbl := player_tbl db ++ [mkPlayer (player_id_seq db) name];
     match_tbl := match_tbl db;
     player_id_seq := player_id_seq db + 1 |}.

(** Modelled from the spec: the foreign-key check of [match.winner] and
    [match.loser], which the store runs on every insert into [match]. *)
Definition references_player (db : DB) (i : Z) : bool :=
  existsb (fun p => player_id p =? i) (player_tbl db).

(** [INSERT INTO match (winner, loser) VALUES (%s, %s)]: rejected when an id
    refers to no player; nothing else is checked, so a row with
    [winner = loser] or a repeated row is stored like any other. *)
Definition insert_match (w l : Z) (db : DB) : option DB :=
  if references_player db w && references_player db l
  then Some {| player_tbl := player_tbl db;
               match_tbl := match_tbl db ++ [mkMatch w l];
               player_id_seq := player_id_seq db |}
  else None.

(** The select list of the standings query, for one row of [player]: the two
    correlated sub-selects over [match]. *)
Definition standing_row (m : list Match) (p : Player) : Standing :=
  {| st_id := player_id p;
     st_name := player_name p;
     st_wins := count_where (fun r => winner r =? player_id p) m;
     st_matches :=
       count_where (fun r => (loser r =? player_id p) || (winner r =? player_id p)) m |}.

(** [a] may stand before [b] under [ORDER BY wins DESC]. *)
Definition wins_desc (a b : Standing) : Prop := st_wins b <= st_wins a.

(** [ORDER BY wins DESC] as the store implements it: the rows come back
    rearranged and with wins descending; the order among rows with equal wins
    is the store's own. *)
Class StoreOrder : Type := {
  order_by_wins_desc : list Standing -> list Standing;
  order_by_perm : forall rows, Permutation rows (order_by_wins_desc rows);
  order_by_sorted : forall rows, StronglySorted wins_desc (order_by_wins_desc rows)
}.

(** One such store: the library's merge sort on wins, descending. *)
Module WinsDesc <: TotalLeBool.
Definition t : Type := Standing.
Definition leb (a b : Standing) : bool := st_wins b <=? st_wins a.
Lemma leb_total : forall a b, leb a b = true \/ leb b a = true.
Proof. intros a b. unfold leb. rewrite !Z.leb_le. lia. Qed.
End WinsDesc.

Module StandingSort := Sort WinsDesc.

Lemma StandingSort_sorted (rows : list Standing) :
  StronglySorted wins_desc (StandingSort.sort rows).
Proof.
  assert (Htrans : Transitive (fun a b => is_true (WinsDesc.leb a b))).
  { intros a b c. unfold is_true, WinsDesc.leb. rewrite !Z.leb_le. lia. }
  pose proof (StandingSort.StronglySorted_sort rows Htrans) as Hs.
  induction Hs as [|a l _ IH Hall]; constructor; [exact IH|].
  rewrite Forall_forall in *. intros b Hb.
  specialize (Hall b Hb). unfold is_true, WinsDesc.leb in Hall.
  apply Z.leb_le in Hall. exact Hall.
Qed.

Definition merge_sort_store : StoreOrder :=
  {| order_by_wins_desc := StandingSort.sort;
     order_by_perm := StandingSort.Permuted_sort;
     order_by_sorted := StandingSort_sorted |}.

(** Another such store: it scans the rows from the last to the first before
    it sorts them, so rows with equal wins come back in another order. *)
Definition reverse_scan_store : StoreOrder :=
  {| order_by_wins_desc := fun rows => StandingSort.sort (rev rows);
     order_by_perm := fun rows =>
       Permutation_trans (Permutation_rev rows)
                         (StandingSort.Permuted_sort (rev rows));
     order_by_sorted := fun rows => StandingSort_sorted (rev rows) |}.

(* ================================================================== *)
(** ** The functions of [tournament.py] that do not read standings *)

Definition deleteMatches : Store unit :=
  db <- get_db ;; put_db (truncate_match db).

Definition deletePlayers : Store unit :=
  db <- get_db ;; put_db (truncate_player_cascade db).

Definition countPlayers : Store Z :=
  db <- get_db ;; ret (Z.of_nat (length (player_tbl db))).

(** Whether a string holds the character NUL. *)
Fixpoint has_nul (s : string) : bool :=
  match s with
  | EmptyString => false
  | String c s' => Ascii.eqb c Ascii.zero || has_nul s'
  end.

(** The driver refuses to bind a string that holds NUL as a query parameter:
    [cur.execute] raises [ValueError] before anything reaches the store, and
    the transaction is rolled back. *)
Definition registerPlayer (name : string) : Store unit :=
  if has_nul name then value_error
  else db <- get_db ;; put_db (insert_player name db).

Definition reportMatch (winner loser : Z) : Store unit :=
  db <- get_db ;;
  match insert_match winner loser db with
  | Some db' => put_db db'
  | None => storage_error
  end.

(** [standings[start::2]]. *)
Fixpoint every_other {A} (l : list A) : list A :=
  match l with
  | [] => []
  | x :: t => x :: match t with
                   | [] => []
                   | _ :: t' => every_other t'
                   end
  end.

Definition slice_step2 {A} (start : nat) (l : list A) : list A :=
  every_other (skipn start l).

(** The body of [swissPairings] after the standings are fetched: the loop
    over [zip(standings[::2], standings[1::2])] that appends one tuple per
    iteration to [matches]. *)
Definition pair (standings : list Standing) : list Pairing :=
  map (fun '(p1, p2) => mkPairing (st_id p1) (st_name p1) (st_id p2) (st_name p2))
      (combine (slice_step2 0 standings) (slice_step2 1 standings)).

(* ================================================================== *)
(** ** Standings and pairings, over any store order *)

Section Standings.

Context {O : StoreOrder}.

(** The rows the standings query returns on [db]. *)
Definition select_standings (db : DB) : list Standing :=
  order_by_wins_desc (map (standing_row (match_tbl db)) (player_tbl db)).

Definition playerStandings : Store (list Standing) :=
  db <- get_db ;; ret (select_standings db).

Definition swissPairings : Store (list Pairing) :=
  standings <- playerStandings ;; ret (pair standings).

End Standings.

(* ================================================================== *)
(** ** Reachable states *)

(** The states of the store that calls of the module's functions produce from
    a freshly provisioned store.  The read-only functions leave the store as
    it is and need no rule. *)
Inductive reachable : DB -> Prop :=
| reachable_empty : reachable empty_db
| reachable_registerPlayer db db' name :
    reachable db -> registerPlayer name db = Some (tt, db') -> reachable db'
| reachable_reportMatch db db' w l :
    reachable db -> reportMatch w l db = Some (tt, db') -> reachable db'
| reachable_deleteMatches db db' :
    reachable db -> deleteMatches db = Some (tt, db') -> reachable db'
| reachable_deletePlayers db db' :
    reachable db -> deletePlayers db = Some (tt, db') -> reachable db'.

(** The constraints of the schema as an invariant: ids are unique and below
    the sequence, and every match refers to registered players. *)
Record store_ok (db : DB) : Prop := {
  ids_unique : NoDup (map player_id (player_tbl db));
  ids_below_seq : Forall (fun p => player_id p < player_id_seq db) (player_tbl db);
  matches_refer :
    Forall (fun r => references_player db (winner r) = true /\
                     references_player db (loser r) = true) (match_tbl db)
}.

(* ================================================================== *)
(** ** The vocabulary of the specification *)

(** wins(p): the number of match rows with winner = p. *)
Fixpoint wins_of (p : Z) (ms : list Match) : Z :=
  match ms with
  | [] => 0
  | r :: ms' => (if winner r =? p then 1 else 0) + wins_of p ms'
  end.

(** matches(p): the number of match rows with winner = p or loser = p. *)
Fixpoint matches_of (p : Z) (ms : list Match) : Z :=
  match ms with
  | [] => 0
  | r :: ms' =>
      (if (winner r =? p) || (loser r =? p) then 1 else 0) + matches_of p ms'
  end.

(** The (id, name) of a standings row. *)
Definition entrant (s : Standing) : Player := mkPlayer (st_id s) (st_name s).

(** The players of a list of pairings, in the order they are listed. *)
Definition paired_players (ps : list Pairing) : list Player :=
  flat_map (fun p => [mkPlayer (id1 p) (name1 p); mkPlayer (id2 p) (name2 p)]) ps.

(** A standings row after its player won once more. *)
Definition credit_win (s : Standing) : Standing :=
  mkStanding (st_id s) (st_name s) (st_wins s + 1) (st_matches s + 1).

(** A standings row after its player lost once more. *)
Definition credit_loss (s : Standing) : Standing :=
  mkStanding (st_id s) (st_name s) (st_wins s) (st_matches s + 1).

(** What one recorded match [w] beat [l] does to a standings row. *)
Definition record_effect (w l : Z) (s : Standing) : Standing :=
  if st_id s =? w then credit_win s
  else if st_id s =? l then credit_loss s
  else s.

(** Standings [after] compared with standings [before], as the specification
    words the effect of one recorded match: the winner's rows gain a win and a
    match, the loser's rows gain a match and keep their wins, and the rows of
    every other player are the same on both sides. *)
Definition record_shows (w l : Z) (before after : list Standing) : Prop :=
  length after = length before /\
  (forall s, In s before -> st_id s = w -> In (credit_win s) after) /\
  (forall s, In s before -> st_id s = l -> In (credit_loss s) after) /\
  (forall s, st_id s <> w -> st_id s <> l -> In s before <-> In s after).

(** A computation makes no use of the store when its result is the same
    whatever the store holds. *)
Definition store_independent {A} (m : Store A) : Prop :=
  forall db1 db2, option_map fst (m db1) = option_map fst (m db2).

(** A computation has no side effect when every run leaves the store as it
    found it. *)
Definition read_only {A} (m : Store A) : Prop :=
  forall db a db', m db = Some (a, db') -> db' = db.

(** The wins of all rows of a standings list, added up. *)
Definition total_wins (standings : list Standing) : Z :=
  fold_right (fun s acc => st_wins s + acc) 0 standings.

(** The matches of all rows of a standings list, added up. *)
Definition total_matches (standings : list Standing) : Z :=
  fold_right (fun s acc => st_matches s + acc) 0 standings.

(** The number of match rows that player [p] lost to another player. *)
Definition losses_to_others (p : Z) (ms : list Match) : Z :=
  count_where (fun r => (loser r =? p) && negb (winner r =? p)) ms.

(** The number of match rows whose winner is also their loser. *)
Definition self_matches (ms : list Match) : Z :=
  count_where (fun r => winner r =? loser r) ms.

(* ================================================================== *)
(** ** Sample stores and standings *)

(** The standings of the specification's pairing example. *)
Definition standings_ABCD : list Standing :=
  [ mkStanding 1 "A" 1 1; mkStanding 2 "B" 1 1;
    mkStanding 3 "C" 0 1; mkStanding 4 "D" 0 1 ].

(** One registered player, no match. *)
Definition db_A : DB :=
  {| player_tbl := [mkPlayer 1 "A"]; match_tbl := []; player_id_seq := 2 |}.

(** Two registered players, no match. *)
Definition db_AB : DB :=
  {| player_tbl := [mkPlayer 1 "A"; mkPlayer 2 "B"];
     match_tbl := [];
     player_id_seq := 3 |}.

(** [db_A] after A was recorded as beating A. *)
Definition db_A_self : DB :=
  {| player_tbl := player_tbl db_A;
     match_tbl := [mkMatch 1 1];
     player_id_seq := 2 |}.

(** [db_AB] after A beat B. *)
Definition db_AB_played : DB :=
  {| player_tbl := player_tbl db_AB;
     match_tbl := [mkMatch 1 2];
     player_id_seq := 3 |}.

(** Three registered players; B beat A, then B beat C. *)
Definition db_ABC : DB :=
  {| player_tbl := [mkPlayer 1 "A"; mkPlayer 2 "B"; mkPlayer 3 "C"];
     match_tbl := [mkMatch 2 1; mkMatch 2 3];
     player_id_seq := 4 |}.

(** The same players and matches as [db_ABC], recorded in the other order. *)
Definition db_ABC' : DB :=
  {| player_tbl := [mkPlayer 1 "A"; mkPlayer 2 "B"; mkPlayer 3 "C"];
     match_tbl := [mkMatch 2 3; mkMatch 2 1];
     player_id_seq := 4 |}.

(* ================================================================== *)
(** ** Slicing and pairing *)

Lemma slice_step2_1_cons {A} (a : A) (l : list A) :
  slice_step2 1 (a :: l) = slice_step2 0 l.
Proof. reflexivity. Qed.

Lemma slice_step2_0_cons {A} (a : A) (l : list A) :
  slice_step2 0 (a :: l) = a :: slice_step2 1 l.
Proof. destruct l; reflexivity. Qed.

Lemma pair_nil : pair [] = [].
Proof. reflexivity. Qed.

Lemma pair_single (a : Standing) : pair [a] = [].
Proof. reflexivity. Qed.

Lemma pair_cons2 (a b : Standing) (l : list Standing) :
  pair (a :: b :: l) =
  mkPairing (st_id a) (st_name a) (st_id b) (st_name b) :: pair l.
Proof.
  unfold pair.
  rewrite slice_step2_0_cons, !slice_step2_1_cons, slice_step2_0_cons.
  reflexivity.
Qed.

(** Induction on a list two elements at a time, as the loop consumes it. *)
Lemma list_pair_ind {A} (P : list A -> Prop) :
  P [] -> (forall a, P [a]) -> (forall a b l, P l -> P (a :: b :: l)) ->
  forall l, P l.
Proof.
  intros Hnil Hone Hstep l.
  assert (H : P l /\ forall a, P (a :: l)).
  { induction l as [|b l [IH1 IH2]]; split; auto. }
  exact (proj1 H).
Qed.

Lemma half_SS (n : nat) : (S (S n) / 2 = S (n / 2))%nat.
Proof.
  change (S (S n)) with (2 + n)%nat.
  replace (2 + n)%nat with (n + 1 * 2)%nat by lia.
  rewrite Nat.div_add by lia. lia.
Qed.

Lemma pair_length (standings : list Standing) :
  length (pair standings) = (length standings / 2)%nat.
Proof.
  induction standings as [|a|a b l IH] using list_pair_ind; try reflexivity.
  rewrite pair_cons2. cbn [length]. rewrite half_SS, IH. reflexivity.
Qed.

Lemma pair_players (standings : list Standing) :
  paired_players (pair standings) =
  map entrant (firstn (2 * (length standings / 2)) standings).
Proof.
  induction standings as [|a|a b l IH] using list_pair_ind; try reflexivity.
  rewrite pair_cons2. cbn [length]. rewrite half_SS.
  replace (2 * S (length l / 2))%nat with (S (S (2 * (length l / 2)))) by lia.
  cbn [firstn map paired_players flat_map app]. fold (paired_players (pair l)).
  rewrite IH. reflexivity.
Qed.

Lemma pair_nth_error (standings : list Standing) (i : nat) (a b : Standing) :
  nth_error standings (2 * i) = Some a ->
  nth_error standings (2 * i + 1) = Some b ->
  nth_error (pair standings) i =
  Some (mkPairing (st_id a) (st_name a) (st_id b) (st_name b)).
Proof.
  revert i.
  induction standings as [|x|x y l IH] using list_pair_ind; intros i Ha Hb.
  - destruct (2 * i)%nat; discriminate.
  - replace (2 * i + 1)%nat with (S (2 * i)) in Hb by lia.
    cbn [nth_error] in Hb. destruct (2 * i)%nat; discriminate.
  - rewrite pair_cons2. destruct i as [|i].
    + cbn in Ha, Hb. injection Ha as <-. injection Hb as <-. reflexivity.
    + replace (2 * S i)%nat with (S (S (2 * i))) in Ha by lia.
      replace (2 * S i + 1)%nat with (S (S (2 * i + 1))) in Hb by lia.
      cbn [nth_error] in *. apply IH; assumption.
Qed.

(* ================================================================== *)
(** ** Counting match rows *)

Lemma count_where_wins (p : Z) (ms : list Match) :
  count_where (fun r => winner r =? p) ms = wins_of p ms.
Proof.
  unfold count_where.
  induction ms as [|r ms IH]; [reflexivity|].
  cbn [filter wins_of]. destruct (winner r =? p); cbn [length]; lia.
Qed.

Lemma count_where_matches (p : Z) (ms : list Match) :
  count_where (fun r => (loser r =? p) || (winner r =? p)) ms = matches_of p ms.
Proof.
  unfold count_where.
  induction ms as [|r ms IH]; [reflexivity|].
  cbn [filter matches_of]. rewrite (orb_comm (loser r =? p)).
  destruct ((winner r =? p) || (loser r =? p)); cbn [length]; lia.
Qed.

Lemma standing_row_counts (ms : list Match) (p : Player) :
  standing_row ms p =
  mkStanding (player_id p) (player_name p)
             (wins_of (player_id p) ms) (matches_of (player_id p) ms).
Proof.
  unfold standing_row. rewrite count_where_wins, count_where_matches.
  reflexivity.
Qed.

Lemma wins_of_app (p : Z) (ms ms' : list Match) :
  wins_of p (ms ++ ms') = wins_of p ms + wins_of p ms'.
Proof. induction ms as [|r ms IH]; cbn [app wins_of]; lia. Qed.

Lemma matches_of_app (p : Z) (ms ms' : list Match) :
  matches_of p (ms ++ ms') = matches_of p ms + matches_of p ms'.
Proof. induction ms as [|r ms IH]; cbn [app matches_of]; lia. Qed.

Lemma wins_le_matches (p : Z) (ms : list Match) :
  wins_of p ms <= matches_of p ms.
Proof.
  induction ms as [|r ms IH]; cbn [wins_of matches_of]; [lia|].
  destruct (winner r =? p); cbn [orb]; [lia|].
  destruct (loser r =? p); lia.
Qed.

Lemma standing_row_record (w l : Z) (ms : list Match) (p : Player) :
  standing_row (ms ++ [mkMatch w l]) p = record_effect w l (standing_row ms p).
Proof.
  rewrite !standing_row_counts, wins_of_app, matches_of_app.
  unfold record_effect, credit_win, credit_loss.
  cbn [wins_of matches_of winner loser st_id st_name st_wins st_matches].
  destruct (player_id p =? w) eqn:Ew.
  - apply Z.eqb_eq in Ew. subst w. rewrite Z.eqb_refl. cbn [orb].
    f_equal; lia.
  - rewrite (Z.eqb_sym w), Ew. cbn [orb].
    destruct (player_id p =? l) eqn:El.
    + rewrite (Z.eqb_sym l), El. f_equal; lia.
    + rewrite (Z.eqb_sym l), El. f_equal; lia.
Qed.

(* ================================================================== *)
(** ** The state-changing functions *)

Lemma registerPlayer_run (name : string) (db : DB) :
  has_nul name = false ->
  registerPlayer name db = Some (tt, insert_player name db).
Proof. intros H. unfold registerPlayer. rewrite H. reflexivity. Qed.

Lemma registerPlayer_nul (name : string) (db : DB) :
  has_nul name = true -> registerPlayer name db = None.
Proof. intros H. unfold registerPlayer. rewrite H. reflexivity. Qed.

Lemma registerPlayer_inv (name : string) (db db' : DB) (u : unit) :
  registerPlayer name db = Some (u, db') ->
  has_nul name = false /\ db' = insert_player name db.
Proof.
  unfold registerPlayer. destruct (has_nul name); [discriminate|].
  intros H. injection H as _ <-. auto.
Qed.

Lemma deleteMatches_run (db : DB) :
  deleteMatches db = Some (tt, truncate_match db).
Proof. reflexivity. Qed.

Lemma deletePlayers_run (db : DB) :
  deletePlayers db = Some (tt, truncate_player_cascade db).
Proof. reflexivity. Qed.

Lemma countPlayers_run (db : DB) :
  countPlayers db = Some (Z.of_nat (length (player_tbl db)), db).
Proof. reflexivity. Qed.

Lemma reportMatch_inv (w l : Z) (db db' : DB) (u : unit) :
  reportMatch w l db = Some (u, db') ->
  references_player db w = true /\ references_player db l = true /\
  db' = mkDB (player_tbl db) (match_tbl db ++ [mkMatch w l]) (player_id_seq db).
Proof.
  unfold reportMatch, bind, get_db, insert_match, put_db, storage_error.
  destruct (references_player db w); cbn [andb]; [|discriminate].
  destruct (references_player db l); [|discriminate].
  intros H. injection H as _ <-. auto.
Qed.

Lemma reportMatch_run (w l : Z) (db : DB) :
  references_player db w = true -> references_player db l = true ->
  reportMatch w l db =
  Some (tt, mkDB (player_tbl db) (match_tbl db ++ [mkMatch w l]) (player_id_seq db)).
Proof.
  intros Hw Hl.
  unfold reportMatch, bind, get_db, insert_match, put_db.
  rewrite Hw, Hl. reflexivity.
Qed.

Lemma references_player_In (db : DB) (i : Z) :
  references_player db i = true <-> In i (map player_id (player_tbl db)).
Proof.
  unfold references_player. rewrite existsb_exists, in_map_iff.
  split; intros [p [H1 H2]]; exists p.
  - apply Z.eqb_eq in H2. auto.
  - split; [exact H2|]. apply Z.eqb_eq. exact H1.
Qed.

Lemma store_ok_empty : store_ok empty_db.
Proof. split; cbn; constructor. Qed.

Lemma store_ok_insert_player (name : string) (db : DB) :
  store_ok db -> store_ok (insert_player name db).
Proof.
  intros [Hnd Hlt Hfk]. split; cbn [insert_player player_tbl match_tbl player_id_seq].
  - rewrite map_app. cbn [map player_id].
    apply NoDup_app; [exact Hnd | repeat constructor; intros [] | ].
    intros i Hi [<-|[]].
    apply in_map_iff in Hi. destruct Hi as [p [Hp Hin]].
    rewrite Forall_forall in Hlt. specialize (Hlt p Hin). lia.
  - apply Forall_app. split.
    + eapply Forall_impl; [|exact Hlt]. cbn. intros p Hp. lia.
    + repeat constructor. cbn. lia.
  - eapply Forall_impl; [|exact Hfk].
    intros r [Hw Hl]. rewrite !references_player_In in *.
    cbn [insert_player player_tbl]. rewrite map_app, !in_app_iff. auto.
Qed.

Lemma store_ok_truncate_match (db : DB) :
  store_ok db -> store_ok (truncate_match db).
Proof.
  intros [Hnd Hlt Hfk]. split; cbn [truncate_match player_tbl match_tbl player_id_seq];
    auto.
Qed.

Lemma store_ok_truncate_player_cascade (db : DB) :
  store_ok (truncate_player_cascade db).
Proof. exact store_ok_empty. Qed.

Lemma store_ok_reportMatch (w l : Z) (db db' : DB) (u : unit) :
  store_ok db -> reportMatch w l db = Some (u, db') -> store_ok db'.
Proof.
  intros [Hnd Hlt Hfk] H.
  apply reportMatch_inv in H. destruct H as [Hw [Hl ->]].
  split; cbn [player_tbl match_tbl player_id_seq]; auto.
  apply Forall_app. split.
  - exact Hfk.
  - repeat constructor; assumption.
Qed.

(** Every reachable state satisfies the constraints of the schema. *)
Lemma reachable_store_ok (db : DB) : reachable db -> store_ok db.
Proof.
  induction 1 as [ | db db' name _ IH Hrun | db db' w l _ IH Hrun
                 | db db' _ IH Hrun | db db' _ IH Hrun ].
  - exact store_ok_empty.
  - apply registerPlayer_inv in Hrun. destruct Hrun as [_ ->].
    apply store_ok_insert_player, IH.
  - eapply store_ok_reportMatch; eassumption.
  - rewrite deleteMatches_run in Hrun. injection Hrun as <-.
    apply store_ok_truncate_match, IH.
  - rewrite deletePlayers_run in Hrun. injection Hrun as <-.
    apply store_ok_truncate_player_cascade.
Qed.

(* ================================================================== *)
(** ** The standings query *)

Section StandingsFacts.

Context {O : StoreOrder}.

Lemma playerStandings_run (db : DB) :
  playerStandings db = Some (select_standings db, db).
Proof. reflexivity. Qed.

Lemma swissPairings_run (db : DB) :
  swissPairings db = Some (pair (select_standings db), db).
Proof. reflexivity. Qed.

Lemma playerStandings_inv (db db' : DB) (standings : list Standing) :
  playerStandings db = Some (standings, db') ->
  standings = select_standings db /\ db' = db.
Proof. rewrite playerStandings_run. intros H. injection H as <- <-. auto. Qed.

Lemma select_standings_perm (db : DB) :
  Permutation (map (standing_row (match_tbl db)) (player_tbl db))
              (select_standings db).
Proof. apply order_by_perm. Qed.

Lemma select_standings_In (db : DB) (s : Standing) :
  In s (select_standings db) <->
  exists p, In p (player_tbl db) /\ s = standing_row (match_tbl db) p.
Proof.
  split.
  - intros H.
    apply (Permutation_in _ (Permutation_sym (select_standings_perm db))) in H.
    apply in_map_iff in H. destruct H as [p [<- Hp]]. eauto.
  - intros [p [Hp ->]].
    apply (Permutation_in _ (select_standings_perm db)).
    apply in_map. exact Hp.
Qed.

Lemma select_standings_length (db : DB) :
  length (select_standings db) = length (player_tbl db).
Proof.
  rewrite <- (Permutation_length (select_standings_perm db)).
  apply length_map.
Qed.

Lemma entrant_standing_row (ms : list Match) (p : Player) :
  entrant (standing_row ms p) = p.
Proof. destruct p; reflexivity. Qed.

Lemma select_standings_entrants (db : DB) :
  Permutation (map entrant (select_standings db)) (player_tbl db).
Proof.
  eapply Permutation_trans.
  - apply Permutation_map, Permutation_sym, select_standings_perm.
  - rewrite map_map.
    rewrite (map_ext _ (fun p => p)) by (intros p; apply entrant_standing_row).
    rewrite map_id. apply Permutation_refl.
Qed.

Lemma select_standings_counts (db : DB) :
  Forall (fun s => st_wins s = wins_of (st_id s) (match_tbl db) /\
                   st_matches s = matches_of (st_id s) (match_tbl db))
         (select_standings db).
Proof.
  apply Forall_forall. intros s Hs.
  apply select_standings_In in Hs. destruct Hs as [p [_ ->]].
  rewrite standing_row_counts. cbn. auto.
Qed.

Lemma st_id_record_effect (w l : Z) (s : Standing) :
  st_id (record_effect w l s) = st_id s.
Proof.
  unfold record_effect.
  destruct (st_id s =? w); [reflexivity|].
  destruct (st_id s =? l); reflexivity.
Qed.

Lemma select_standings_record (w l : Z) (db : DB) (s : Standing) :
  In s (select_standings
          (mkDB (player_tbl db) (match_tbl db ++ [mkMatch w l]) (player_id_seq db)))
  <-> exists s0, In s0 (select_standings db) /\ s = record_effect w l s0.
Proof.
  rewrite select_standings_In. cbn [player_tbl match_tbl]. split.
  - intros [p [Hp ->]]. exists (standing_row (match_tbl db) p). split.
    + apply select_standings_In. eauto.
    + apply standing_row_record.
  - intros [s0 [Hs0 ->]]. apply select_standings_In in Hs0.
    destruct Hs0 as [p [Hp ->]]. exists p. split; [exact Hp|].
    symmetry. apply standing_row_record.
Qed.

End StandingsFacts.

(* ================================================================== *)
(** ** Arithmetic of halves *)

Lemma even_double_half (n : nat) :
  Z.even (Z.of_nat n) = true -> (2 * (n / 2) = n)%nat.
Proof.
  intros H. apply Z.even_spec in H. destruct H as [k Hk].
  assert (Hn : n = (Z.to_nat k * 2)%nat) by lia.
  rewrite Hn at 1. rewrite Nat.div_mul by lia. lia.
Qed.

Lemma odd_half (n : nat) :
  Nat.odd n = true -> (n / 2 = (n - 1) / 2 /\ 2 * (n / 2) = n - 1)%nat.
Proof.
  intros H. apply Nat.odd_spec in H. destruct H as [k Hk].
  assert (H1 : (n / 2 = k)%nat).
  { subst n. replace (2 * k + 1)%nat with (1 + k * 2)%nat by lia.
    rewrite Nat.div_add by lia. reflexivity. }
  assert (H2 : ((n - 1) / 2 = k)%nat).
  { subst n. replace (2 * k + 1 - 1)%nat with (k * 2)%nat by lia.
    apply Nat.div_mul. lia. }
  lia.
Qed.

(* ================================================================== *)
(** ** Standings *)

(** C1: [playerStandings] returns, without touching the store, one row
    (id, name, wins, matches) per registered player; the wins of a row are the
    number of recorded matches its player won, its matches the number of
    recorded matches its player won or lost; the rows are ordered by wins,
    descending. *)
Theorem playerStandings_correct {O : StoreOrder} (db : DB) :
  exists standings,
    playerStandings db = Some (standings, db) /\
    Permutation (map entrant standings) (player_tbl db) /\
    Forall (fun s => st_wins s = wins_of (st_id s) (match_tbl db) /\
                     st_matches s = matches_of (st_id s) (match_tbl db))
           standings /\
    StronglySorted wins_desc standings.
Proof.
  exists (select_standings db).
  split; [apply playerStandings_run|].
  split; [apply select_standings_entrants|].
  split; [apply select_standings_counts|].
  apply order_by_sorted.
Qed.

(** C4: on a store with N registered players and no recorded match,
    [playerStandings] returns exactly N rows, each with wins = 0 and
    matches = 0. *)
Theorem playerStandings_no_matches {O : StoreOrder} (db : DB) :
  match_tbl db = [] ->
  exists n standings,
    countPlayers db = Some (n, db) /\
    playerStandings db = Some (standings, db) /\
    Z.of_nat (length standings) = n /\
    Forall (fun s => st_wins s = 0 /\ st_matches s = 0) standings.
Proof.
  intros Hm.
  exists (Z.of_nat (length (player_tbl db))), (select_standings db).
  split; [apply countPlayers_run|].
  split; [apply playerStandings_run|].
  split; [now rewrite select_standings_length|].
  pose proof (select_standings_counts db) as Hc. rewrite Hm in Hc.
  eapply Forall_impl; [|exact Hc]. cbn. auto.
Qed.

Lemma playerStandings_no_matches_witness :
  match_tbl db_AB = [] /\
  exists n standings,
    countPlayers db_AB = Some (n, db_AB) /\
    @playerStandings merge_sort_store db_AB = Some (standings, db_AB) /\
    Z.of_nat (length standings) = n /\
    Forall (fun s => st_wins s = 0 /\ st_matches s = 0) standings.
Proof.
  split; [reflexivity|].
  apply (@playerStandings_no_matches merge_sort_store db_AB). reflexivity.
Defined.

(** C7: in every reachable state, every row that [playerStandings] returns
    has wins <= matches. *)
Theorem wins_le_matches_reachable {O : StoreOrder} (db : DB) :
  reachable db ->
  exists standings,
    playerStandings db = Some (standings, db) /\
    Forall (fun s => st_wins s <= st_matches s) standings.
Proof.
  intros _. exists (select_standings db).
  split; [apply playerStandings_run|].
  eapply Forall_impl; [|apply select_standings_counts].
  cbn. intros s [-> ->]. apply wins_le_matches.
Qed.

Lemma reachable_db_AB : reachable db_AB.
Proof.
  apply (reachable_registerPlayer (insert_player "A" empty_db) _ "B");
    [|reflexivity].
  apply (reachable_registerPlayer empty_db _ "A"); [|reflexivity].
  apply reachable_empty.
Defined.

Lemma reachable_db_AB_played : reachable db_AB_played.
Proof.
  apply (reachable_reportMatch db_AB _ 1 2); [|reflexivity].
  apply reachable_db_AB.
Defined.

Lemma wins_le_matches_reachable_witness :
  reachable db_AB_played /\
  exists standings,
    @playerStandings merge_sort_store db_AB_played = Some (standings, db_AB_played) /\
    Forall (fun s => st_wins s <= st_matches s) standings.
Proof.
  split; [apply reachable_db_AB_played|].
  apply (@wins_le_matches_reachable merge_sort_store db_AB_played).
  apply reachable_db_AB_played.
Defined.

(** C6: [deleteMatches] succeeds and leaves the [player] table, hence the
    number [countPlayers] returns, as it was; afterwards [playerStandings]
    lists every registered player with wins = 0 and matches = 0. *)
Theorem deleteMatches_keeps_players {O : StoreOrder} (db : DB) :
  exists db' n standings,
    deleteMatches db = Some (tt, db') /\
    player_tbl db' = player_tbl db /\
    countPlayers db = Some (n, db) /\
    countPlayers db' = Some (n, db') /\
    playerStandings db' = Some (standings, db') /\
    Permutation (map entrant standings) (player_tbl db) /\
    Forall (fun s => st_wins s = 0 /\ st_matches s = 0) standings.
Proof.
  exists (truncate_match db), (Z.of_nat (length (player_tbl db))),
         (select_standings (truncate_match db)).
  split; [apply deleteMatches_run|].
  split; [reflexivity|].
  split; [apply countPlayers_run|].
  split; [exact (countPlayers_run (truncate_match db))|].
  split; [apply playerStandings_run|].
  split; [apply (select_standings_entrants (truncate_match db))|].
  eapply Forall_impl; [|apply select_standings_counts].
  cbn. auto.
Qed.

(* ================================================================== *)
(** ** Pairings *)

(** C2: [pair] takes the standings as ranked and cuts them into consecutive
    pairs that do not overlap: the i-th pairing is made of the rows at
    positions 2i and 2i+1, there are half as many pairings as rows, and the
    (id, name) of the pairings read in order are those of the standings read
    in order.  On the standings A, B, C, D of the specification the result is
    (1, A, 2, B), (3, C, 4, D). *)
Theorem pair_consecutive :
  (forall standings,
     length (pair standings) = (length standings / 2)%nat /\
     paired_players (pair standings) =
       map entrant (firstn (2 * (length standings / 2)) standings)) /\
  (forall standings i a b,
     nth_error standings (2 * i) = Some a ->
     nth_error standings (2 * i + 1) = Some b ->
     nth_error (pair standings) i =
       Some (mkPairing (st_id a) (st_name a) (st_id b) (st_name b))) /\
  pair standings_ABCD = [mkPairing 1 "A" 2 "B"; mkPairing 3 "C" 4 "D"].
Proof.
  split; [|split].
  - intros standings. split; [apply pair_length | apply pair_players].
  - apply pair_nth_error.
  - reflexivity.
Qed.

Lemma pair_consecutive_witness :
  nth_error standings_ABCD (2 * 1) = Some (mkStanding 3 "C" 0 1) /\
  nth_error standings_ABCD (2 * 1 + 1) = Some (mkStanding 4 "D" 0 1) /\
  nth_error (pair standings_ABCD) 1 = Some (mkPairing 3 "C" 4 "D").
Proof.
  split; [reflexivity|]. split; [reflexivity|].
  apply (proj1 (proj2 pair_consecutive) standings_ABCD 1%nat
               (mkStanding 3 "C" 0 1) (mkStanding 4 "D" 0 1));
    reflexivity.
Defined.

(** C10: on standings with an odd number N of rows [pair] returns (N-1)/2
    pairings, made in rank order of the first N-1 rows; the last row is in no
    pairing, and [swissPairings] returns this result rather than an error. *)
Theorem pair_odd {O : StoreOrder} (standings : list Standing) :
  Nat.odd (length standings) = true ->
  length (pair standings) = ((length standings - 1) / 2)%nat /\
  paired_players (pair standings) =
    map entrant (firstn (length standings - 1) standings) /\
  pair standings = pair (removelast standings) /\
  forall db, playerStandings db = Some (standings, db) ->
             swissPairings db = Some (pair standings, db).
Proof.
  intros Hodd. destruct (odd_half _ Hodd) as [Hhalf Hdouble].
  split; [|split; [|split]].
  - rewrite pair_length. exact Hhalf.
  - rewrite pair_players, Hdouble. reflexivity.
  - clear Hhalf Hdouble. revert Hodd.
    induction standings as [|a|a b l IH] using list_pair_ind; intros Hodd.
    + discriminate.
    + reflexivity.
    + destruct l as [|c l]; [discriminate|].
      change (removelast (a :: b :: c :: l)) with (a :: b :: removelast (c :: l)).
      rewrite !pair_cons2. f_equal. apply IH. exact Hodd.
  - intros db Hdb. apply playerStandings_inv in Hdb. destruct Hdb as [-> _].
    apply swissPairings_run.
Qed.

Lemma pair_odd_witness :
  let standings :=
    [mkStanding 2 "B" 2 2; mkStanding 3 "C" 0 1; mkStanding 1 "A" 0 1] in
  Nat.odd (length standings) = true /\
  length (pair standings) = ((length standings - 1) / 2)%nat /\
  paired_players (pair standings) =
    map entrant (firstn (length standings - 1) standings) /\
  pair standings = pair (removelast standings) /\
  forall db, playerStandings (O := merge_sort_store) db = Some (standings, db) ->
             swissPairings (O := merge_sort_store) db = Some (pair standings, db).
Proof.
  split; [reflexivity|].
  apply (@pair_odd merge_sort_store). reflexivity.
Defined.

(** C8, amended on store access: [swissPairings] is deterministic given a
    fixed standings ordering and has no side effect.  Two runs that read the
    same standings sequence, in whatever states of the store and however the
    store orders rows with equal wins, both return [pair standings], a
    function of that sequence alone (its players are those of the standings
    read in order, the last one left out when their number is odd), and
    every run leaves the store as it found it.  It does use the store: it
    reads the standings from it. *)
Theorem swissPairings_deterministic
    (O1 O2 : StoreOrder) (db1 db2 : DB) (standings : list Standing) :
  playerStandings (O := O1) db1 = Some (standings, db1) ->
  playerStandings (O := O2) db2 = Some (standings, db2) ->
  swissPairings (O := O1) db1 = Some (pair standings, db1) /\
  swissPairings (O := O2) db2 = Some (pair standings, db2) /\
  paired_players (pair standings) =
    map entrant (firstn (2 * (length standings / 2)) standings) /\
  read_only (swissPairings (O := O1)) /\
  read_only (swissPairings (O := O2)).
Proof.
  intros H1 H2.
  apply playerStandings_inv in H1. destruct H1 as [H1 _].
  apply playerStandings_inv in H2. destruct H2 as [H2 _].
  rewrite !swissPairings_run, <- H1, <- H2.
  split; [reflexivity|]. split; [reflexivity|].
  split; [apply pair_players|].
  split; intros db a db' Hrun; rewrite swissPairings_run in Hrun;
    injection Hrun as _ <-; reflexivity.
Qed.

Lemma swissPairings_deterministic_witness :
  let standings := [mkStanding 1 "A" 1 1; mkStanding 2 "B" 0 1] in
  playerStandings (O := merge_sort_store) db_AB_played =
    Some (standings, db_AB_played) /\
  playerStandings (O := reverse_scan_store) db_AB_played =
    Some (standings, db_AB_played) /\
  swissPairings (O := merge_sort_store) db_AB_played =
    Some (pair standings, db_AB_played) /\
  swissPairings (O := reverse_scan_store) db_AB_played =
    Some (pair standings, db_AB_played) /\
  paired_players (pair standings) =
    map entrant (firstn (2 * (length standings / 2)) standings) /\
  read_only (swissPairings (O := merge_sort_store)) /\
  read_only (swissPairings (O := reverse_scan_store)).
Proof.
  split; [reflexivity|].
  split; [reflexivity|].
  apply (swissPairings_deterministic merge_sort_store reverse_scan_store
           db_AB_played db_AB_played);
    reflexivity.
Defined.

(** C8 as worded fails on store access: [swissPairings] returns no pairing
    on the empty store and one pairing on a store with two players, so its
    result is read from the store. *)
Lemma swissPairings_reads_store :
  swissPairings (O := merge_sort_store) empty_db = Some ([], empty_db) /\
  swissPairings (O := merge_sort_store) db_AB =
    Some ([mkPairing 1 "A" 2 "B"], db_AB) /\
  ~ store_independent (swissPairings (O := merge_sort_store)).
Proof.
  split; [reflexivity|].
  split; [reflexivity|].
  intros H. specialize (H empty_db db_AB). discriminate H.
Qed.

(** Why the standings ordering has to be fixed: on the same store, two store
    orders that differ on rows with equal wins give different pairings. *)
Lemma tie_order_changes_pairings :
  swissPairings (O := merge_sort_store) db_AB =
    Some ([mkPairing 1 "A" 2 "B"], db_AB) /\
  swissPairings (O := reverse_scan_store) db_AB =
    Some ([mkPairing 2 "B" 1 "A"], db_AB).
Proof. split; reflexivity. Qed.

(** C3: in a reachable state with an even number N of registered players,
    [swissPairings] returns N/2 pairings, and the ids in them are the
    registered ids, each exactly once. *)
Theorem swissPairings_partition {O : StoreOrder} (db : DB) (n : Z) :
  reachable db ->
  countPlayers db = Some (n, db) ->
  Z.even n = true ->
  exists pairs,
    swissPairings db = Some (pairs, db) /\
    Z.of_nat (length pairs) = n / 2 /\
    Permutation (map player_id (paired_players pairs))
                (map player_id (player_tbl db)) /\
    NoDup (map player_id (paired_players pairs)).
Proof.
  intros Hreach Hcount Heven.
  rewrite countPlayers_run in Hcount. injection Hcount as <-.
  exists (pair (select_standings db)).
  assert (Hplayers :
    Permutation (paired_players (pair (select_standings db))) (player_tbl db)).
  { rewrite pair_players, select_standings_length.
    rewrite (even_double_half _ Heven), <- (select_standings_length db).
    rewrite firstn_all. apply select_standings_entrants. }
  split; [apply swissPairings_run|].
  split; [|split].
  - rewrite pair_length, select_standings_length, Nat2Z.inj_div. reflexivity.
  - apply Permutation_map. exact Hplayers.
  - apply (Permutation_NoDup
             (Permutation_sym (Permutation_map player_id Hplayers))).
    apply (ids_unique db), reachable_store_ok, Hreach.
Qed.

Lemma swissPairings_partition_witness :
  reachable db_AB /\ countPlayers db_AB = Some (2, db_AB) /\ Z.even 2 = true /\
  exists pairs,
    swissPairings (O := merge_sort_store) db_AB = Some (pairs, db_AB) /\
    Z.of_nat (length pairs) = 2 / 2 /\
    Permutation (map player_id (paired_players pairs))
                (map player_id (player_tbl db_AB)) /\
    NoDup (map player_id (paired_players pairs)).
Proof.
  split; [apply reachable_db_AB|].
  split; [reflexivity|].
  split; [reflexivity|].
  apply (@swissPairings_partition merge_sort_store db_AB 2);
    [apply reachable_db_AB | reflexivity | reflexivity].
Defined.

(* ================================================================== *)
(** ** Recording a match *)

Lemma record_effect_winner (w l : Z) (s : Standing) :
  st_id s = w -> record_effect w l s = credit_win s.
Proof. intros H. unfold record_effect. rewrite H, Z.eqb_refl. reflexivity. Qed.

Lemma record_effect_loser (w l : Z) (s : Standing) :
  st_id s <> w -> st_id s = l -> record_effect w l s = credit_loss s.
Proof.
  intros Hw Hl. unfold record_effect.
  apply Z.eqb_neq in Hw. rewrite Hw, Hl, Z.eqb_refl. reflexivity.
Qed.

Lemma record_effect_other (w l : Z) (s : Standing) :
  st_id s <> w -> st_id s <> l -> record_effect w l s = s.
Proof.
  intros Hw Hl. unfold record_effect.
  apply Z.eqb_neq in Hw. apply Z.eqb_neq in Hl. rewrite Hw, Hl. reflexivity.
Qed.

Lemma registered_has_row {O : StoreOrder} (db : DB) (i : Z) :
  references_player db i = true ->
  exists s, In s (select_standings db) /\ st_id s = i.
Proof.
  intros H. apply references_player_In in H. apply in_map_iff in H.
  destruct H as [p [Hid Hp]].
  exists (standing_row (match_tbl db) p). split; [|exact Hid].
  apply select_standings_In. exists p. auto.
Qed.

Lemma select_standings_record_perm {O : StoreOrder} (w l : Z) (db : DB) :
  Permutation
    (select_standings
       (mkDB (player_tbl db) (match_tbl db ++ [mkMatch w l]) (player_id_seq db)))
    (map (record_effect w l) (select_standings db)).
Proof.
  eapply Permutation_trans; [apply Permutation_sym, select_standings_perm|].
  cbn [player_tbl match_tbl].
  rewrite (map_ext _ (fun p => record_effect w l (standing_row (match_tbl db) p)))
    by (intros p; apply standing_row_record).
  rewrite <- (map_map (standing_row (match_tbl db)) (record_effect w l)).
  apply Permutation_map, select_standings_perm.
Qed.

(** C5, amended in the loser's part only: after a [reportMatch w l] that
    succeeded, the standings are those before the call with the effect of
    the match applied row by row.  The winner is listed and shows one more
    win and one more match, and every player other than the two is listed
    as before; this holds also when [w = l].  When [w <> l] the loser is
    listed and shows one more match and the same wins. *)
Theorem reportMatch_standings {O : StoreOrder}
    (w l : Z) (db db' : DB) (before after : list Standing) :
  reportMatch w l db = Some (tt, db') ->
  playerStandings db = Some (before, db) ->
  playerStandings db' = Some (after, db') ->
  Permutation after (map (record_effect w l) before) /\
  (exists s, In s before /\ st_id s = w /\ In (credit_win s) after) /\
  (forall s, In s before -> st_id s = w -> In (credit_win s) after) /\
  (forall s, st_id s <> w -> st_id s <> l -> In s before <-> In s after) /\
  (w <> l ->
   (exists s, In s before /\ st_id s = l /\ In (credit_loss s) after) /\
   record_shows w l before after).
Proof.
  intros Hrun Hb Ha.
  apply reportMatch_inv in Hrun. destruct Hrun as [Hregw [Hregl ->]].
  apply playerStandings_inv in Hb. destruct Hb as [-> _].
  apply playerStandings_inv in Ha. destruct Ha as [-> _].
  assert (Hwin : forall s, In s (select_standings db) -> st_id s = w ->
            In (credit_win s)
               (select_standings
                  (mkDB (player_tbl db) (match_tbl db ++ [mkMatch w l])
                        (player_id_seq db)))).
  { intros s Hs Hid. apply select_standings_record.
    exists s. split; [exact Hs|]. symmetry. now apply record_effect_winner. }
  assert (Hloss : w <> l ->
            forall s, In s (select_standings db) -> st_id s = l ->
            In (credit_loss s)
               (select_standings
                  (mkDB (player_tbl db) (match_tbl db ++ [mkMatch w l])
                        (player_id_seq db)))).
  { intros Hwl s Hs Hid. apply select_standings_record.
    exists s. split; [exact Hs|]. symmetry.
    apply record_effect_loser; [congruence | exact Hid]. }
  assert (Hframe : forall s, st_id s <> w -> st_id s <> l ->
            In s (select_standings db) <->
            In s (select_standings
                    (mkDB (player_tbl db) (match_tbl db ++ [mkMatch w l])
                          (player_id_seq db)))).
  { intros s Hw Hl. rewrite select_standings_record. split.
    - intros Hs. exists s. split; [exact Hs|]. symmetry.
      now apply record_effect_other.
    - intros [s0 [Hs0 Heq]].
      assert (Hid : st_id s0 = st_id s)
        by (rewrite Heq; symmetry; apply st_id_record_effect).
      rewrite record_effect_other in Heq by congruence.
      subst s0. exact Hs0. }
  split; [apply select_standings_record_perm|].
  split.
  { destruct (registered_has_row db w Hregw) as [s [Hs Hid]].
    exists s. auto. }
  split; [exact Hwin|].
  split; [exact Hframe|].
  intros Hwl. split.
  - destruct (registered_has_row db l Hregl) as [s [Hs Hid]].
    exists s. auto.
  - split; [rewrite !select_standings_length; reflexivity|].
    split; [exact Hwin|]. split; [exact (Hloss Hwl) | exact Hframe].
Qed.

Lemma reportMatch_standings_witness :
  let before := [mkStanding 1 "A" 0 0; mkStanding 2 "B" 0 0] in
  let after := [mkStanding 1 "A" 1 1; mkStanding 2 "B" 0 1] in
  reportMatch 1 2 db_AB = Some (tt, db_AB_played) /\
  playerStandings (O := merge_sort_store) db_AB = Some (before, db_AB) /\
  playerStandings (O := merge_sort_store) db_AB_played = Some (after, db_AB_played) /\
  Permutation after (map (record_effect 1 2) before) /\
  (exists s, In s before /\ st_id s = 1 /\ In (credit_win s) after) /\
  (forall s, In s before -> st_id s = 1 -> In (credit_win s) after) /\
  (forall s, st_id s <> 1 -> st_id s <> 2 -> In s before <-> In s after) /\
  (1 <> 2 ->
   (exists s, In s before /\ st_id s = 2 /\ In (credit_loss s) after) /\
   record_shows 1 2 before after).
Proof.
  split; [reflexivity|].
  split; [reflexivity|].
  split; [reflexivity|].
  apply (@reportMatch_standings merge_sort_store 1 2 db_AB db_AB_played);
    reflexivity.
Defined.

(** C5 as worded fails when winner and loser are the same player: after
    [reportMatch 1 1] the standings show player 1 with one more win, so the
    loser's wins are not unchanged. *)
Lemma reportMatch_self_counterexample :
  let before := [mkStanding 1 "A" 0 0] in
  let after := [mkStanding 1 "A" 1 1] in
  reportMatch 1 1 db_A = Some (tt, db_A_self) /\
  playerStandings (O := merge_sort_store) db_A = Some (before, db_A) /\
  playerStandings (O := merge_sort_store) db_A_self = Some (after, db_A_self) /\
  ~ record_shows 1 1 before after.
Proof.
  split; [reflexivity|].
  split; [reflexivity|].
  split; [reflexivity|].
  intros [_ [_ [Hloss _]]].
  specialize (Hloss (mkStanding 1 "A" 0 0) (or_introl eq_refl) eq_refl).
  destruct Hloss as [Heq|[]]. discriminate Heq.
Qed.

(** C9: [reportMatch p p] on a registered player is accepted: the row (p, p)
    is appended to [match]; p is listed in the standings before and after,
    and afterwards shows one more win and one more match, the row counting
    once; the rows of the other players are as before. *)
Theorem reportMatch_self {O : StoreOrder} (p : Z) (db : DB) :
  references_player db p = true ->
  exists db' before after,
    reportMatch p p db = Some (tt, db') /\
    player_tbl db' = player_tbl db /\
    match_tbl db' = match_tbl db ++ [mkMatch p p] /\
    playerStandings db = Some (before, db) /\
    playerStandings db' = Some (after, db') /\
    length after = length before /\
    (exists s, In s before /\ st_id s = p /\ In (credit_win s) after) /\
    Permutation after
      (map (fun s => if st_id s =? p then credit_win s else s) before) /\
    (forall s, In s before -> st_id s = p -> In (credit_win s) after) /\
    (forall s', In s' after -> st_id s' = p ->
                exists s, In s before /\ s' = credit_win s).
Proof.
  intros Hp.
  exists (mkDB (player_tbl db) (match_tbl db ++ [mkMatch p p]) (player_id_seq db)).
  exists (select_standings db).
  eexists.
  split; [apply reportMatch_run; exact Hp|].
  split; [reflexivity|].
  split; [reflexivity|].
  split; [apply playerStandings_run|].
  split; [apply playerStandings_run|].
  split; [rewrite !select_standings_length; reflexivity|].
  assert (Hwin : forall s, In s (select_standings db) -> st_id s = p ->
            In (credit_win s)
               (select_standings
                  (mkDB (player_tbl db) (match_tbl db ++ [mkMatch p p])
                        (player_id_seq db)))).
  { intros s Hs Hid. apply select_standings_record.
    exists s. split; [exact Hs|]. symmetry. now apply record_effect_winner. }
  split.
  { destruct (registered_has_row db p Hp) as [s [Hs Hid]]. exists s. auto. }
  split.
  { rewrite (map_ext _ (record_effect p p)).
    - apply select_standings_record_perm.
    - intros s. unfold record_effect. destruct (st_id s =? p); reflexivity. }
  split; [exact Hwin|].
  intros s' Hs' Hid. apply select_standings_record in Hs'.
  destruct Hs' as [s [Hs Heq]]. exists s. split; [exact Hs|].
  rewrite Heq. apply record_effect_winner.
  rewrite <- Hid, Heq. symmetry. apply st_id_record_effect.
Qed.

Lemma reportMatch_self_witness :
  references_player db_A 1 = true /\
  exists db' before after,
    reportMatch 1 1 db_A = Some (tt, db') /\
    player_tbl db' = player_tbl db_A /\
    match_tbl db' = match_tbl db_A ++ [mkMatch 1 1] /\
    playerStandings (O := merge_sort_store) db_A = Some (before, db_A) /\
    playerStandings (O := merge_sort_store) db' = Some (after, db') /\
    length after = length before /\
    (exists s, In s before /\ st_id s = 1 /\ In (credit_win s) after) /\
    Permutation after
      (map (fun s => if st_id s =? 1 then credit_win s else s) before) /\
    (forall s, In s before -> st_id s = 1 -> In (credit_win s) after) /\
    (forall s', In s' after -> st_id s' = 1 ->
                exists s, In s before /\ s' = credit_win s).
Proof.
  split; [reflexivity|].
  apply (@reportMatch_self merge_sort_store 1 db_A). reflexivity.
Defined.

(* ================================================================== *)
(** ** Registering and deleting players *)

Lemma unreferenced_counts (i : Z) (ms : list Match) :
  Forall (fun r => winner r <> i /\ loser r <> i) ms ->
  wins_of i ms = 0 /\ matches_of i ms = 0.
Proof.
  induction 1 as [|r ms [Hw Hl] _ [IHw IHm]]; [split; reflexivity|].
  cbn [wins_of matches_of].
  apply Z.eqb_neq in Hw. apply Z.eqb_neq in Hl.
  rewrite Hw, Hl, IHw, IHm. split; reflexivity.
Qed.

Lemma store_ok_seq_unreferenced (db : DB) :
  store_ok db ->
  Forall (fun r => winner r <> player_id_seq db /\ loser r <> player_id_seq db)
         (match_tbl db).
Proof.
  intros [_ Hlt Hfk].
  assert (Hfresh : forall i, references_player db i = true -> i <> player_id_seq db).
  { intros i Hi. apply references_player_In in Hi.
    apply in_map_iff in Hi. destruct Hi as [p [<- Hp]].
    rewrite Forall_forall in Hlt. specialize (Hlt p Hp). lia. }
  eapply Forall_impl; [|exact Hfk].
  cbn. intros r [Hw Hl]. auto.
Qed.

Lemma order_by_nil {O : StoreOrder} : order_by_wins_desc [] = [].
Proof. apply Permutation_nil, order_by_perm. Qed.

Lemma order_by_single {O : StoreOrder} (s : Standing) :
  order_by_wins_desc [s] = [s].
Proof. apply Permutation_length_1_inv, order_by_perm. Qed.

(** X1: [deletePlayers] always succeeds and empties both tables: afterwards
    [countPlayers] returns 0, [playerStandings] returns no row and
    [swissPairings] no pairing. *)
Theorem deletePlayers_empties {O : StoreOrder} (db : DB) :
  exists db',
    deletePlayers db = Some (tt, db') /\
    match_tbl db' = [] /\
    countPlayers db' = Some (0, db') /\
    playerStandings db' = Some ([], db') /\
    swissPairings db' = Some ([], db').
Proof.
  exists (truncate_player_cascade db).
  split; [apply deletePlayers_run|].
  split; [reflexivity|].
  split; [reflexivity|].
  assert (Hs : select_standings (truncate_player_cascade db) = [])
    by apply order_by_nil.
  split.
  - rewrite playerStandings_run, Hs. reflexivity.
  - rewrite swissPairings_run, Hs. reflexivity.
Qed.

(** X2: [registerPlayer] on a name that holds NUL raises and stores nothing;
    on every other name, whether or not it is already registered, it
    succeeds, raises the number [countPlayers] returns by one and leaves the
    recorded matches alone. *)
Theorem registerPlayer_counts (name : string) (db : DB) :
  exists n,
    countPlayers db = Some (n, db) /\
    if has_nul name
    then registerPlayer name db = None
    else exists db',
           registerPlayer name db = Some (tt, db') /\
           countPlayers db' = Some (n + 1, db') /\
           match_tbl db' = match_tbl db.
Proof.
  exists (Z.of_nat (length (player_tbl db))).
  split; [apply countPlayers_run|].
  destruct (has_nul name) eqn:Hnul.
  - apply registerPlayer_nul, Hnul.
  - exists (insert_player name db).
    split; [apply registerPlayer_run, Hnul|].
    split; [|reflexivity].
    rewrite countPlayers_run. cbn [insert_player player_tbl].
    rewrite length_app. cbn [length]. do 2 f_equal. lia.
Qed.

(** X3: in a reachable state [registerPlayer name], for a name without NUL,
    adds to the standings one row (id, name, 0, 0) whose id no earlier row
    carries, and keeps every earlier row as it was. *)
Theorem registerPlayer_standings {O : StoreOrder} (name : string) (db : DB) :
  reachable db ->
  has_nul name = false ->
  exists db' before after,
    registerPlayer name db = Some (tt, db') /\
    playerStandings db = Some (before, db) /\
    playerStandings db' = Some (after, db') /\
    Permutation after (mkStanding (player_id_seq db) name 0 0 :: before) /\
    ~ In (player_id_seq db) (map st_id before).
Proof.
  intros Hreach Hnul. apply reachable_store_ok in Hreach.
  exists (insert_player name db), (select_standings db),
         (select_standings (insert_player name db)).
  split; [apply registerPlayer_run, Hnul|].
  split; [apply playerStandings_run|].
  split; [apply playerStandings_run|].
  split.
  - eapply Permutation_trans;
      [apply Permutation_sym, select_standings_perm|].
    cbn [insert_player player_tbl match_tbl]. rewrite map_app. cbn [map].
    rewrite standing_row_counts. cbn [player_id player_name].
    destruct (unreferenced_counts _ _ (store_ok_seq_unreferenced db Hreach))
      as [-> ->].
    eapply Permutation_trans; [apply Permutation_sym, Permutation_cons_append|].
    apply perm_skip, select_standings_perm.
  - intros Hin. apply in_map_iff in Hin. destruct Hin as [s [Hid Hs]].
    apply select_standings_In in Hs. destruct Hs as [p [Hp ->]].
    cbn [standing_row st_id] in Hid.
    destruct Hreach as [_ Hlt _]. rewrite Forall_forall in Hlt.
    specialize (Hlt p Hp). lia.
Qed.

Lemma registerPlayer_standings_witness :
  reachable db_AB_played /\
  has_nul "A" = false /\
  exists db' before after,
    registerPlayer "A" db_AB_played = Some (tt, db') /\
    playerStandings (O := merge_sort_store) db_AB_played = Some (before, db_AB_played) /\
    playerStandings (O := merge_sort_store) db' = Some (after, db') /\
    Permutation after (mkStanding (player_id_seq db_AB_played) "A" 0 0 :: before) /\
    ~ In (player_id_seq db_AB_played) (map st_id before).
Proof.
  split; [apply reachable_db_AB_played|].
  split; [reflexivity|].
  apply (@registerPlayer_standings merge_sort_store "A" db_AB_played);
    [apply reachable_db_AB_played | reflexivity].
Defined.

(** X4: [deletePlayers] restarts the id sequence: the first player registered
    after it, under a name without NUL, gets id 1, and is then the only row
    of the standings, with no win and no match. *)
Theorem deletePlayers_restarts_ids {O : StoreOrder} (name : string) (db : DB) :
  has_nul name = false ->
  exists db1 db2,
    deletePlayers db = Some (tt, db1) /\
    registerPlayer name db1 = Some (tt, db2) /\
    countPlayers db2 = Some (1, db2) /\
    playerStandings db2 = Some ([mkStanding 1 name 0 0], db2).
Proof.
  intros Hnul.
  exists (truncate_player_cascade db),
         (insert_player name (truncate_player_cascade db)).
  split; [apply deletePlayers_run|].
  split; [apply registerPlayer_run, Hnul|].
  split; [reflexivity|].
  rewrite playerStandings_run. unfold select_standings.
  cbn [insert_player truncate_player_cascade player_tbl match_tbl app map].
  rewrite order_by_single. reflexivity.
Qed.

Lemma deletePlayers_restarts_ids_witness :
  has_nul "D" = false /\
  exists db1 db2,
    deletePlayers db_ABC = Some (tt, db1) /\
    registerPlayer "D" db1 = Some (tt, db2) /\
    countPlayers db2 = Some (1, db2) /\
    playerStandings (O := merge_sort_store) db2 =
      Some ([mkStanding 1 "D" 0 0], db2).
Proof.
  split; [reflexivity|].
  apply (@deletePlayers_restarts_ids merge_sort_store "D" db_ABC). reflexivity.
Defined.

(* ================================================================== *)
(** ** Totals and bounds of the standings *)

Lemma total_wins_perm (l l' : list Standing) :
  Permutation l l' -> total_wins l = total_wins l'.
Proof.
  induction 1 as [|x l l' _ IH|x y l|l l' l'' _ IH1 _ IH2];
    cbn [total_wins fold_right] in *.
  - reflexivity.
  - fold (total_wins l) in *. fold (total_wins l') in *. lia.
  - lia.
  - congruence.
Qed.

Lemma total_matches_perm (l l' : list Standing) :
  Permutation l l' -> total_matches l = total_matches l'.
Proof.
  induction 1 as [|x l l' _ IH|x y l|l l' l'' _ IH1 _ IH2];
    cbn [total_matches fold_right] in *.
  - reflexivity.
  - fold (total_matches l) in *. fold (total_matches l') in *. lia.
  - lia.
  - congruence.
Qed.

Lemma count_where_cons {A} (cond : A -> bool) (a : A) (l : list A) :
  count_where cond (a :: l) = (if cond a then 1 else 0) + count_where cond l.
Proof.
  unfold count_where. cbn [filter]. destruct (cond a); cbn [length]; lia.
Qed.

Lemma count_where_nonneg {A} (cond : A -> bool) (l : list A) :
  0 <= count_where cond l.
Proof. unfold count_where. lia. Qed.

Lemma count_where_le_length {A} (cond : A -> bool) (l : list A) :
  count_where cond l <= Z.of_nat (length l).
Proof.
  unfold count_where. apply Nat2Z.inj_le, filter_length_le.
Qed.

Lemma count_where_or_and {A} (f g : A -> bool) (l : list A) :
  count_where (fun a => f a || g a) l + count_where (fun a => f a && g a) l =
  count_where f l + count_where g l.
Proof.
  induction l as [|a l IH]; [reflexivity|].
  rewrite !count_where_cons. destruct (f a), (g a); cbn [orb andb]; lia.
Qed.

(** How many rows of [player] carry the id [i]: one if it is registered and
    ids are unique, none if it is not registered. *)
Lemma count_id_registered (i : Z) (ps : list Player) :
  NoDup (map player_id ps) -> In i (map player_id ps) ->
  count_where (fun p => i =? player_id p) ps = 1.
Proof.
  induction ps as [|p ps IH]; cbn [map]; intros Hnd Hin; [destruct Hin|].
  rewrite count_where_cons. inversion Hnd as [|? ? Hnotin Hnd']; subst.
  destruct (i =? player_id p) eqn:E.
  - apply Z.eqb_eq in E. subst i.
    assert (H0 : count_where (fun q => player_id p =? player_id q) ps = 0).
    { clear IH Hnd Hnd' Hin. induction ps as [|q ps IHps]; [reflexivity|].
      rewrite count_where_cons. cbn [map] in Hnotin.
      destruct (player_id p =? player_id q) eqn:E.
      - apply Z.eqb_eq in E. exfalso. apply Hnotin. left. auto.
      - rewrite IHps; [reflexivity|]. intros H. apply Hnotin. right. exact H. }
    lia.
  - apply Z.eqb_neq in E. destruct Hin as [Heq|Hin]; [congruence|].
    rewrite (IH Hnd' Hin). reflexivity.
Qed.

Lemma total_wins_cons (r : Match) (ms : list Match) (ps : list Player) :
  total_wins (map (standing_row (r :: ms)) ps) =
  count_where (fun p => winner r =? player_id p) ps +
  total_wins (map (standing_row ms) ps).
Proof.
  induction ps as [|p ps IH]; [reflexivity|].
  cbn [map total_wins fold_right].
  fold (total_wins (map (standing_row (r :: ms)) ps)).
  fold (total_wins (map (standing_row ms) ps)).
  rewrite IH, count_where_cons, !standing_row_counts.
  cbn [st_wins wins_of]. lia.
Qed.

Lemma total_matches_cons (r : Match) (ms : list Match) (ps : list Player) :
  total_matches (map (standing_row (r :: ms)) ps) =
  count_where (fun p => (winner r =? player_id p) || (loser r =? player_id p)) ps +
  total_matches (map (standing_row ms) ps).
Proof.
  induction ps as [|p ps IH]; [reflexivity|].
  cbn [map total_matches fold_right].
  fold (total_matches (map (standing_row (r :: ms)) ps)).
  fold (total_matches (map (standing_row ms) ps)).
  rewrite IH, count_where_cons, !standing_row_counts.
  cbn [st_matches matches_of]. lia.
Qed.

Lemma totals_no_match (ps : list Player) :
  total_wins (map (standing_row []) ps) = 0 /\
  total_matches (map (standing_row []) ps) = 0.
Proof.
  induction ps as [|p ps [IHw IHm]]; [split; reflexivity|].
  cbn [map total_wins total_matches fold_right].
  fold (total_wins (map (standing_row []) ps)).
  fold (total_matches (map (standing_row []) ps)).
  rewrite IHw, IHm. split; reflexivity.
Qed.

Lemma count_winner_and_loser (w l : Z) (ps : list Player) :
  NoDup (map player_id ps) -> In w (map player_id ps) ->
  count_where (fun p => (w =? player_id p) && (l =? player_id p)) ps =
  if w =? l then 1 else 0.
Proof.
  intros Hnd Hw. destruct (w =? l) eqn:E.
  - apply Z.eqb_eq in E. subst l.
    rewrite <- (count_id_registered w ps Hnd Hw).
    unfold count_where. do 2 f_equal. apply filter_ext.
    intros p. apply andb_diag.
  - apply Z.eqb_neq in E. clear Hnd Hw.
    induction ps as [|p ps IH]; [reflexivity|].
    rewrite count_where_cons, IH.
    destruct (w =? player_id p) eqn:Ew, (l =? player_id p) eqn:El;
      cbn [andb]; try reflexivity.
    apply Z.eqb_eq in Ew. apply Z.eqb_eq in El. congruence.
Qed.

Lemma totals_of_rows (ps : list Player) (ms : list Match) :
  NoDup (map player_id ps) ->
  Forall (fun r => In (winner r) (map player_id ps) /\
                   In (loser r) (map player_id ps)) ms ->
  total_wins (map (standing_row ms) ps) = Z.of_nat (length ms) /\
  total_matches (map (standing_row ms) ps) =
    2 * Z.of_nat (length ms) - self_matches ms.
Proof.
  intros Hnd. induction 1 as [|r ms [Hw Hl] _ [IHw IHm]].
  - apply totals_no_match.
  - rewrite total_wins_cons, total_matches_cons, IHw, IHm.
    unfold self_matches. rewrite count_where_cons.
    pose proof (count_where_or_and (fun p => winner r =? player_id p)
                                   (fun p => loser r =? player_id p) ps) as Hie.
    cbv beta in Hie.
    rewrite (count_id_registered _ _ Hnd Hw) in *.
    rewrite (count_id_registered _ _ Hnd Hl) in Hie.
    rewrite (count_winner_and_loser _ _ _ Hnd Hw) in Hie.
    cbn [length]. destruct (winner r =? loser r); split; lia.
Qed.

Lemma store_ok_rows (db : DB) :
  store_ok db ->
  Forall (fun r => In (winner r) (map player_id (player_tbl db)) /\
                   In (loser r) (map player_id (player_tbl db))) (match_tbl db).
Proof.
  intros [_ _ Hfk]. eapply Forall_impl; [|exact Hfk].
  cbn. intros r. rewrite !references_player_In. auto.
Qed.

Lemma reachable_db_ABC : reachable db_ABC.
Proof.
  apply (reachable_reportMatch
           (mkDB (player_tbl db_ABC) [mkMatch 2 1] 4) _ 2 3); [|reflexivity].
  apply (reachable_reportMatch
           (mkDB (player_tbl db_ABC) [] 4) _ 2 1); [|reflexivity].
  apply (reachable_registerPlayer db_AB _ "C"); [|reflexivity].
  apply reachable_db_AB.
Defined.

Lemma reachable_db_A_self : reachable db_A_self.
Proof.
  apply (reachable_reportMatch db_A _ 1 1); [|reflexivity].
  apply (reachable_registerPlayer empty_db _ "A"); [|reflexivity].
  apply reachable_empty.
Defined.

(** X5: in every reachable state the wins of all rows of the standings add up
    to the number of recorded matches: each match is one player's win. *)
Theorem total_wins_is_match_count {O : StoreOrder} (db : DB) :
  reachable db ->
  exists standings,
    playerStandings db = Some (standings, db) /\
    total_wins standings = Z.of_nat (length (match_tbl db)).
Proof.
  intros Hreach. apply reachable_store_ok in Hreach.
  exists (select_standings db). split; [apply playerStandings_run|].
  rewrite <- (total_wins_perm _ _ (select_standings_perm db)).
  apply totals_of_rows; [apply (ids_unique db Hreach) | apply store_ok_rows, Hreach].
Qed.

Lemma total_wins_is_match_count_witness :
  reachable db_ABC /\
  exists standings,
    playerStandings (O := merge_sort_store) db_ABC = Some (standings, db_ABC) /\
    total_wins standings = Z.of_nat (length (match_tbl db_ABC)).
Proof.
  split; [apply reachable_db_ABC|].
  apply (@total_wins_is_match_count merge_sort_store db_ABC).
  apply reachable_db_ABC.
Defined.

(** X6: in every reachable state the matches of all rows of the standings add
    up to twice the number of recorded matches, less one for each match a
    player was recorded as playing against themself. *)
Theorem total_matches_is_twice_match_count {O : StoreOrder} (db : DB) :
  reachable db ->
  exists standings,
    playerStandings db = Some (standings, db) /\
    total_matches standings =
      2 * Z.of_nat (length (match_tbl db)) - self_matches (match_tbl db).
Proof.
  intros Hreach. apply reachable_store_ok in Hreach.
  exists (select_standings db). split; [apply playerStandings_run|].
  rewrite <- (total_matches_perm _ _ (select_standings_perm db)).
  apply totals_of_rows; [apply (ids_unique db Hreach) | apply store_ok_rows, Hreach].
Qed.

Lemma total_matches_is_twice_match_count_witness :
  reachable db_A_self /\
  exists standings,
    playerStandings (O := merge_sort_store) db_A_self = Some (standings, db_A_self) /\
    total_matches standings =
      2 * Z.of_nat (length (match_tbl db_A_self)) - self_matches (match_tbl db_A_self).
Proof.
  split; [apply reachable_db_A_self|].
  apply (@total_matches_is_twice_match_count merge_sort_store db_A_self).
  apply reachable_db_A_self.
Defined.

(** X7: the first row [playerStandings] returns is a leader: no other row has
    more wins. *)
Theorem playerStandings_head_leads {O : StoreOrder}
    (db : DB) (s : Standing) (rest : list Standing) :
  playerStandings db = Some (s :: rest, db) ->
  Forall (fun s' => st_wins s' <= st_wins s) rest.
Proof.
  intros H. apply playerStandings_inv in H. destruct H as [H _].
  pose proof (order_by_sorted
                (map (standing_row (match_tbl db)) (player_tbl db))) as Hs.
  fold (select_standings db) in Hs. rewrite <- H in Hs.
  inversion Hs as [|? ? _ Hall]; subst. exact Hall.
Qed.

Lemma playerStandings_head_leads_witness :
  playerStandings (O := merge_sort_store) db_ABC =
    Some (mkStanding 2 "B" 2 2 :: [mkStanding 3 "C" 0 1; mkStanding 1 "A" 0 1], db_ABC) /\
  Forall (fun s' => st_wins s' <= st_wins (mkStanding 2 "B" 2 2))
         [mkStanding 3 "C" 0 1; mkStanding 1 "A" 0 1].
Proof.
  split; [reflexivity|].
  apply (@playerStandings_head_leads merge_sort_store db_ABC). reflexivity.
Defined.

(** X8: in any state, no row of the standings has negative wins, and none
    has more matches than there are recorded matches. *)
Theorem standings_bounds {O : StoreOrder} (db : DB) :
  exists standings,
    playerStandings db = Some (standings, db) /\
    Forall (fun s => 0 <= st_wins s /\
                     st_matches s <= Z.of_nat (length (match_tbl db)))
           standings.
Proof.
  exists (select_standings db). split; [apply playerStandings_run|].
  apply Forall_forall. intros s Hs.
  apply select_standings_In in Hs. destruct Hs as [p [_ ->]].
  cbn [standing_row st_wins st_matches].
  split; [apply count_where_nonneg | apply count_where_le_length].
Qed.

(** X9: in any state, the matches of a row are its wins plus the number of
    recorded matches its player lost to another player; a match recorded
    against oneself adds to wins and is not counted a second time. *)
Theorem matches_are_wins_plus_losses {O : StoreOrder} (db : DB) :
  exists standings,
    playerStandings db = Some (standings, db) /\
    Forall (fun s => st_matches s =
                     st_wins s + losses_to_others (st_id s) (match_tbl db))
           standings.
Proof.
  exists (select_standings db). split; [apply playerStandings_run|].
  apply Forall_forall. intros s Hs.
  apply select_standings_In in Hs. destruct Hs as [p [_ ->]].
  cbn [standing_row st_wins st_matches st_id]. unfold losses_to_others.
  induction (match_tbl db) as [|r ms IH]; [reflexivity|].
  rewrite !count_where_cons, IH.
  destruct (winner r =? player_id p), (loser r =? player_id p);
    cbn [orb andb negb]; lia.
Qed.

(* ================================================================== *)
(** ** More on recording matches *)

(** X10: [reportMatch] does not look at the matches already recorded: a call
    that succeeded succeeds again with the same arguments, the second row is
    stored beside the first, and the winner, who is listed in the standings,
    gains the win and the match a second time. *)
Theorem reportMatch_again {O : StoreOrder} (w l : Z) (db db1 : DB) :
  reportMatch w l db = Some (tt, db1) ->
  exists db2 before after,
    reportMatch w l db1 = Some (tt, db2) /\
    player_tbl db2 = player_tbl db /\
    match_tbl db2 = match_tbl db ++ [mkMatch w l; mkMatch w l] /\
    playerStandings db = Some (before, db) /\
    playerStandings db2 = Some (after, db2) /\
    length after = length before /\
    (exists s, In s before /\ st_id s = w /\
               In (credit_win (credit_win s)) after) /\
    forall s, In s before -> st_id s = w ->
              In (credit_win (credit_win s)) after.
Proof.
  intros Hrun. apply reportMatch_inv in Hrun. destruct Hrun as [Hw [Hl ->]].
  eexists. exists (select_standings db). eexists.
  split; [apply reportMatch_run; assumption|].
  cbn [player_tbl match_tbl player_id_seq].
  split; [reflexivity|].
  split; [rewrite <- app_assoc; reflexivity|].
  split; [apply playerStandings_run|].
  split; [apply playerStandings_run|].
  split; [rewrite !select_standings_length; reflexivity|].
  assert (Htwice : forall s, In s (select_standings db) -> st_id s = w ->
            In (credit_win (credit_win s))
               (select_standings
                  (mkDB (player_tbl db)
                        ((match_tbl db ++ [mkMatch w l]) ++ [mkMatch w l])
                        (player_id_seq db)))).
  { intros s Hs Hid.
    apply (select_standings_record w l
             (mkDB (player_tbl db) (match_tbl db ++ [mkMatch w l])
                   (player_id_seq db))).
    exists (credit_win s). split.
    - apply select_standings_record. exists s. split; [exact Hs|].
      symmetry. apply record_effect_winner. exact Hid.
    - symmetry. apply record_effect_winner. exact Hid. }
  split; [|exact Htwice].
  destruct (registered_has_row db w Hw) as [s [Hs Hid]]. exists s. auto.
Qed.

Lemma reportMatch_again_witness :
  reportMatch 1 2 db_AB = Some (tt, db_AB_played) /\
  exists db2 before after,
    reportMatch 1 2 db_AB_played = Some (tt, db2) /\
    player_tbl db2 = player_tbl db_AB /\
    match_tbl db2 = match_tbl db_AB ++ [mkMatch 1 2; mkMatch 1 2] /\
    playerStandings (O := merge_sort_store) db_AB = Some (before, db_AB) /\
    playerStandings (O := merge_sort_store) db2 = Some (after, db2) /\
    length after = length before /\
    (exists s, In s before /\ st_id s = 1 /\
               In (credit_win (credit_win s)) after) /\
    forall s, In s before -> st_id s = 1 ->
              In (credit_win (credit_win s)) after.
Proof.
  split; [reflexivity|].
  apply (@reportMatch_again merge_sort_store 1 2 db_AB db_AB_played).
  reflexivity.
Defined.

(** X11: after the first match recorded in a store without matches, the
    winner leads the standings: the first row is the winner's, with one win,
    and every row of another player has no win. *)
Theorem first_match_winner_leads {O : StoreOrder} (w l : Z) (db db' : DB) :
  match_tbl db = [] ->
  reportMatch w l db = Some (tt, db') ->
  exists s rest,
    playerStandings db' = Some (s :: rest, db') /\
    st_id s = w /\ st_wins s = 1 /\
    Forall (fun s' => st_id s' <> w -> st_wins s' = 0) rest.
Proof.
  intros Hm Hrun. apply reportMatch_inv in Hrun. destruct Hrun as [Hw [_ ->]].
  rewrite Hm. cbn [app].
  set (db' := mkDB (player_tbl db) [mkMatch w l] (player_id_seq db)).
  assert (Hrow : forall s, In s (select_standings db') ->
                 st_wins s = if w =? st_id s then 1 else 0).
  { intros s Hs. apply select_standings_In in Hs. destruct Hs as [p [_ ->]].
    rewrite standing_row_counts. cbn. destruct (w =? player_id p); reflexivity. }
  assert (Hin : exists sw, In sw (select_standings db') /\ st_wins sw = 1).
  { apply references_player_In in Hw. apply in_map_iff in Hw.
    destruct Hw as [p [Hid Hp]]. exists (standing_row (match_tbl db') p). split.
    - apply select_standings_In. exists p. split; [exact Hp | reflexivity].
    - rewrite standing_row_counts. cbn. rewrite Hid, Z.eqb_refl. reflexivity. }
  pose proof (order_by_sorted
                (map (standing_row (match_tbl db')) (player_tbl db'))) as Hs.
  fold (select_standings db') in Hs.
  destruct (select_standings db') as [|s rest] eqn:E.
  { destruct Hin as [sw [[] _]]. }
  exists s, rest.
  assert (Hone : st_wins s = 1).
  { inversion Hs as [|? ? _ Hall]; subst.
    pose proof (Hrow s (or_introl eq_refl)) as Hs1.
    destruct Hin as [sw [[<-|Hsw] H1]]; [exact H1|].
    rewrite Forall_forall in Hall. specialize (Hall sw Hsw).
    unfold wins_desc in Hall. destruct (w =? st_id s); lia. }
  split; [rewrite playerStandings_run, E; reflexivity|].
  split; [|split; [exact Hone|]].
  - pose proof (Hrow s (or_introl eq_refl)) as Hs1.
    destruct (w =? st_id s) eqn:Ew; [|lia].
    apply Z.eqb_eq in Ew. auto.
  - apply Forall_forall. intros s' Hs' Hne.
    rewrite (Hrow s' (or_intror Hs')).
    destruct (w =? st_id s') eqn:Ew; [|reflexivity].
    apply Z.eqb_eq in Ew. congruence.
Qed.

Lemma first_match_winner_leads_witness :
  match_tbl db_AB = [] /\
  reportMatch 2 1 db_AB = Some (tt, mkDB (player_tbl db_AB) [mkMatch 2 1] 3) /\
  exists s rest,
    playerStandings (O := merge_sort_store)
      (mkDB (player_tbl db_AB) [mkMatch 2 1] 3) =
      Some (s :: rest, mkDB (player_tbl db_AB) [mkMatch 2 1] 3) /\
    st_id s = 2 /\ st_wins s = 1 /\
    Forall (fun s' => st_id s' <> 2 -> st_wins s' = 0) rest.
Proof.
  split; [reflexivity|]. split; [reflexivity|].
  apply (@first_match_winner_leads merge_sort_store 2 1 db_AB); reflexivity.
Defined.

(* ================================================================== *)
(** ** More on pairings *)

Lemma paired_ids_distinct (ps : list Pairing) :
  NoDup (map player_id (paired_players ps)) ->
  Forall (fun p => id1 p <> id2 p) ps.
Proof.
  induction ps as [|p ps IH]; intros Hnd; constructor.
  - cbn in Hnd. inversion Hnd as [|? ? Hnotin _]; subst.
    intros Heq. apply Hnotin. left. symmetry. exact Heq.
  - apply IH. cbn in Hnd.
    inversion Hnd as [|? ? _ Hnd']; subst.
    inversion Hnd' as [|? ? _ Hnd'']; subst. exact Hnd''.
Qed.

Lemma NoDup_map_firstn {A B} (f : A -> B) (n : nat) (l : list A) :
  NoDup (map f l) -> NoDup (map f (firstn n l)).
Proof.
  intros H. rewrite <- (firstn_skipn n l), map_app in H.
  exact (NoDup_app_remove_r _ _ H).
Qed.

Lemma In_firstn {A} (n : nat) (l : list A) (x : A) :
  In x (firstn n l) -> In x l.
Proof.
  intros H. rewrite <- (firstn_skipn n l). apply in_or_app. left. exact H.
Qed.

(** X12: in a reachable state, whether the number of players is even or odd,
    [swissPairings] puts no player in two pairings, pairs no player with
    themself, and pairs registered players only, under their registered
    names. *)
Theorem swissPairings_distinct {O : StoreOrder} (db : DB) :
  reachable db ->
  exists pairs,
    swissPairings db = Some (pairs, db) /\
    NoDup (map player_id (paired_players pairs)) /\
    Forall (fun p => id1 p <> id2 p) pairs /\
    incl (paired_players pairs) (player_tbl db).
Proof.
  intros Hreach. apply reachable_store_ok in Hreach.
  exists (pair (select_standings db)).
  split; [apply swissPairings_run|].
  assert (Hnd : NoDup (map player_id (paired_players (pair (select_standings db))))).
  { rewrite pair_players. rewrite map_map.
    apply NoDup_map_firstn. rewrite <- map_map.
    apply (Permutation_NoDup
             (Permutation_sym
                (Permutation_map player_id (select_standings_entrants db)))).
    apply (ids_unique db Hreach). }
  split; [exact Hnd|].
  split; [apply paired_ids_distinct, Hnd|].
  intros x Hx. rewrite pair_players in Hx.
  apply in_map_iff in Hx. destruct Hx as [s [<- Hs]].
  apply In_firstn in Hs.
  apply (Permutation_in _ (select_standings_entrants db)).
  apply in_map. exact Hs.
Qed.

Lemma swissPairings_distinct_witness :
  reachable db_ABC /\
  exists pairs,
    swissPairings (O := merge_sort_store) db_ABC = Some (pairs, db_ABC) /\
    NoDup (map player_id (paired_players pairs)) /\
    Forall (fun p => id1 p <> id2 p) pairs /\
    incl (paired_players pairs) (player_tbl db_ABC).
Proof.
  split; [apply reachable_db_ABC|].
  apply (@swissPairings_distinct merge_sort_store db_ABC).
  apply reachable_db_ABC.
Defined.

(** X13: in any state with N registered players [swissPairings] succeeds and
    returns N/2 pairings, rounded down; it returns none exactly when there
    are fewer than two players. *)
Theorem swissPairings_count {O : StoreOrder} (db : DB) :
  exists n pairs,
    countPlayers db = Some (n, db) /\
    swissPairings db = Some (pairs, db) /\
    Z.of_nat (length pairs) = n / 2 /\
    (pairs = [] <-> n <= 1).
Proof.
  exists (Z.of_nat (length (player_tbl db))), (pair (select_standings db)).
  split; [apply countPlayers_run|].
  split; [apply swissPairings_run|].
  assert (Hlen : Z.of_nat (length (pair (select_standings db))) =
                 Z.of_nat (length (player_tbl db)) / 2).
  { rewrite pair_length, select_standings_length, Nat2Z.inj_div. reflexivity. }
  split; [exact Hlen|].
  split.
  - intros E. rewrite E in Hlen. cbn [length] in Hlen.
    destruct (Z_le_gt_dec (Z.of_nat (length (player_tbl db))) 1) as [|Hgt];
      [assumption|].
    assert (1 <= Z.of_nat (length (player_tbl db)) / 2)
      by (apply Z.div_le_lower_bound; lia).
    lia.
  - intros Hle.
    assert (Hz : Z.of_nat (length (player_tbl db)) / 2 = 0)
      by (apply Z.div_small; lia).
    rewrite Hz in Hlen.
    destruct (pair (select_standings db)); [reflexivity|].
    cbn [length] in Hlen. lia.
Qed.

(** X14: the pairings of the top rows do not depend on the rows below them:
    for standings that start with an even number of rows [top], the pairings
    are those of [top] followed by those of the remaining rows. *)
Theorem pair_app_even (top rest : list Standing) :
  Nat.even (length top) = true ->
  pair (top ++ rest) = pair top ++ pair rest.
Proof.
  induction top as [|a|a b l IH] using list_pair_ind; intros Heven.
  - reflexivity.
  - discriminate.
  - cbn [app]. rewrite !pair_cons2. cbn [app]. f_equal. apply IH. exact Heven.
Qed.

Lemma pair_app_even_witness :
  Nat.even (length (firstn 2 standings_ABCD)) = true /\
  pair (firstn 2 standings_ABCD ++ skipn 2 standings_ABCD) =
  pair (firstn 2 standings_ABCD) ++ pair (skipn 2 standings_ABCD).
Proof.
  split; [reflexivity|].
  apply (pair_app_even (firstn 2 standings_ABCD) (skipn 2 standings_ABCD)).
  reflexivity.
Defined.

Lemma StronglySorted_firstn {A} (R : A -> A -> Prop) (n : nat) (l : list A) :
  StronglySorted R l -> StronglySorted R (firstn n l).
Proof.
  intros H. revert n.
  induction H as [|a l _ IH Hall]; intros [|n]; cbn [firstn]; constructor.
  - apply IH.
  - rewrite Forall_forall in *. intros x Hx. apply Hall.
    exact (In_firstn n l x Hx).
Qed.

Lemma StronglySorted_map_wins (l : list Standing) :
  StronglySorted wins_desc l -> StronglySorted Z.ge (map st_wins l).
Proof.
  induction 1 as [|a l _ IH Hall]; cbn [map]; constructor; [exact IH|].
  rewrite Forall_forall in *. intros x Hx.
  apply in_map_iff in Hx. destruct Hx as [s [<- Hs]].
  specialize (Hall s Hs). unfold wins_desc in Hall. lia.
Qed.

Lemma paired_first_ge_second (ms : list Match) (ps : list Pairing) :
  StronglySorted Z.ge
    (map (fun pl => wins_of (player_id pl) ms) (paired_players ps)) ->
  Forall (fun p => wins_of (id2 p) ms <= wins_of (id1 p) ms) ps.
Proof.
  induction ps as [|p ps IH]; intros Hs; constructor.
  - cbn in Hs. inversion Hs as [|? ? _ Hall]; subst.
    inversion Hall as [|? ? Hge _]; subst. lia.
  - apply IH. cbn in Hs.
    inversion Hs as [|? ? Hs' _]; subst.
    inversion Hs' as [|? ? Hs'' _]; subst. exact Hs''.
Qed.

(** X15: in any state, reading the pairings [swissPairings] returns from
    first to last and each from left to right, the players' numbers of won
    matches never go up; in particular the first player of a pairing has won
    at least as many matches as the second. *)
Theorem swissPairings_by_wins {O : StoreOrder} (db : DB) :
  exists pairs,
    swissPairings db = Some (pairs, db) /\
    StronglySorted Z.ge
      (map (fun pl => wins_of (player_id pl) (match_tbl db))
           (paired_players pairs)) /\
    Forall (fun p => wins_of (id2 p) (match_tbl db) <=
                     wins_of (id1 p) (match_tbl db)) pairs.
Proof.
  exists (pair (select_standings db)).
  split; [apply swissPairings_run|].
  assert (Hs : StronglySorted Z.ge
                 (map (fun pl => wins_of (player_id pl) (match_tbl db))
                      (paired_players (pair (select_standings db))))).
  { rewrite pair_players, map_map.
    set (k := (2 * (length (select_standings db) / 2))%nat).
    rewrite (map_ext_in _ st_wins).
    - apply StronglySorted_map_wins, StronglySorted_firstn.
      apply order_by_sorted.
    - intros s Hin. apply In_firstn in Hin.
      pose proof (select_standings_counts db) as Hc.
      rewrite Forall_forall in Hc. destruct (Hc s Hin) as [-> _].
      reflexivity. }
  split; [exact Hs | apply paired_first_ge_second, Hs].
Qed.

(* ================================================================== *)
(** ** What the store guarantees in every reachable state *)

Lemma reachable_ids_from_one (db : DB) :
  reachable db ->
  1 <= player_id_seq db /\ Forall (fun p => 1 <= player_id p) (player_tbl db).
Proof.
  induction 1 as [ | db db' name _ [IHs IHp] Hrun | db db' w l _ IH Hrun
                 | db db' _ IH Hrun | db db' _ IH Hrun ].
  - split; [cbn; lia | constructor].
  - apply registerPlayer_inv in Hrun. destruct Hrun as [_ ->].
    cbn [insert_player player_id_seq player_tbl]. split; [lia|].
    apply Forall_app. split; [exact IHp|]. repeat constructor. cbn. lia.
  - apply reportMatch_inv in Hrun. destruct Hrun as [_ [_ ->]]. exact IH.
  - rewrite deleteMatches_run in Hrun. injection Hrun as <-. exact IH.
  - rewrite deletePlayers_run in Hrun. injection Hrun as <-.
    split; [cbn; lia | constructor].
Qed.

(** X16: whatever sequence of registrations, reports and deletions led to the
    state, no two registered players share an id, the ids lie between 1 and
    the last value the sequence gave out, and the winner and the loser of
    every recorded match are registered players. *)
Theorem reachable_integrity (db : DB) :
  reachable db ->
  NoDup (map player_id (player_tbl db)) /\
  Forall (fun p => 1 <= player_id p < player_id_seq db) (player_tbl db) /\
  Forall (fun r => In (winner r) (map player_id (player_tbl db)) /\
                   In (loser r) (map player_id (player_tbl db)))
         (match_tbl db).
Proof.
  intros Hreach.
  pose proof (reachable_store_ok db Hreach) as Hok.
  destruct (reachable_ids_from_one db Hreach) as [_ Hone].
  split; [apply (ids_unique db Hok)|].
  split; [|apply store_ok_rows, Hok].
  pose proof (ids_below_seq db Hok) as Hlt.
  rewrite Forall_forall in *. intros p Hp.
  specialize (Hone p Hp). specialize (Hlt p Hp). lia.
Qed.

Lemma reachable_integrity_witness :
  reachable db_ABC /\
  NoDup (map player_id (player_tbl db_ABC)) /\
  Forall (fun p => 1 <= player_id p < player_id_seq db_ABC) (player_tbl db_ABC) /\
  Forall (fun r => In (winner r) (map player_id (player_tbl db_ABC)) /\
                   In (loser r) (map player_id (player_tbl db_ABC)))
         (match_tbl db_ABC).
Proof.
  split; [apply reachable_db_ABC|].
  apply (reachable_integrity db_ABC). apply reachable_db_ABC.
Defined.
